(** * Mancala rules engine (open_spiel/games/mancala.cc)

    A shallow embedding of [MancalaState]: the board array, the sowing
    move, the legal-move generator, the terminal test, the scoring, the
    undo operation, and the board as text and as a tensor, followed by
    the properties of each.

    Conventions of the embedding.
    - The C++ [int], [Player] (an [int]) and [Action] (a 64-bit integer)
      are read in [Z].  Signed overflow has no defined behaviour in C++,
      and on the boards the game reaches every pit stays between 0 and 48
      ([reachable_pit_bounds]), so the arithmetic of [Z] is the arithmetic
      of the program wherever the program has one.
    - [board_] is a [std::array<int, kTotalPits>], read as a [list Z]
      whose length the statements fix to [kTotalPits].  [operator[]] is
      unchecked in C++; here a read outside the array yields 0 and a
      write outside it changes nothing, and every statement about an
      indexed pit carries the bound on the index.
    - The operator [%] of C++ truncates toward zero: it is [Z.rem]. *)

From Stdlib Require Import Ascii.
From stdpp Require Import base numbers list strings pretty.

Local Open Scope Z_scope.

(** ** Constants *)

(** Modelled from the spec: the constants of [mancala.h], which is not
    among the sources.  The spec fixes six row pits per player and a ring
    of 14 pits, indices 0..13, the stores being at 0 and 7. *)
Definition kNumPits : Z := 6.
Definition kTotalPits : Z := (kNumPits + 1) * 2.

(** ** State *)

(** The members of [MancalaState] that the operations below touch.
    [history_] and [move_number_] are inherited from the framework's
    [State]; an entry of [history_] is a (player, action) pair. *)
Record MancalaState : Type := mkState {
  board_ : list Z;
  current_player_ : Z;
  num_moves_ : Z;
  history_ : list (Z * Z);
  move_number_ : Z
}.

(** [board_[i]] as a read and as a write. *)
Definition pit (b : list Z) (i : Z) : Z := b !!! Z.to_nat i.
Definition set_pit (b : list Z) (i v : Z) : list Z := <[Z.to_nat i := v]> b.

(** [board_.size()] *)
Definition size (b : list Z) : Z := Z.of_nat (length b).

(** ** GetPlayerHomePit *)

Definition GetPlayerHomePit (player : Z) : Z :=
  if player =? 0 then kTotalPits / 2 else 0.

(** ** DoApplyAction *)

(** One turn of the sowing loop: [board_[(move + i + 1) % kTotalPits]++]. *)
Definition sow_step (move : Z) (b : list Z) (i : Z) : list Z :=
  let k := Z.rem (move + i + 1) kTotalPits in
  set_pit b k (pit b k + 1).

(** The loop [for (int i = 0; i < num_beans; ++i)] run on board [b]. *)
Definition sow (move num_beans : Z) (b : list Z) : list Z :=
  foldl (sow_step move) b (seqZ 0 num_beans).

Definition DoApplyAction (move : Z) (s : MancalaState) : MancalaState :=
  let num_beans := pit (board_ s) move in
  let b := sow move num_beans (set_pit (board_ s) move 0) in
  let player :=
    if negb (Z.rem (move + num_beans) kTotalPits
             =? GetPlayerHomePit (current_player_ s))
    then 1 - current_player_ s
    else current_player_ s in
  {| board_ := b;
     current_player_ := player;
     num_moves_ := num_moves_ s + 1;
     history_ := history_ s;
     move_number_ := move_number_ s |}.

(** ** IsTerminal *)

(** A loop that raises a flag and leaves at the first pit with beans is
    [existsb] over the loop's indices. *)
Definition player_1_has_moves (b : list Z) : bool :=
  existsb (λ i, 0 <? pit b (size b - 1 - i)) (seqZ 0 kNumPits).

Definition player_0_has_moves (b : list Z) : bool :=
  existsb (λ i, 0 <? pit b (i + 1)) (seqZ 0 kNumPits).

Definition IsTerminal (s : MancalaState) : bool :=
  negb (player_0_has_moves (board_ s)) || negb (player_1_has_moves (board_ s)).

(** ** LegalActions *)

(** [if (board_[k] > 0) moves.push_back(k)] *)
Definition push_if_beans (b : list Z) (moves : list Z) (k : Z) : list Z :=
  if 0 <? pit b k then moves ++ [k] else moves.

Definition LegalActions (s : MancalaState) : list Z :=
  if IsTerminal s then []
  else
    let b := board_ s in
    if current_player_ s =? 0 then
      foldl (λ moves i, push_if_beans b moves (i + 1)) [] (seqZ 0 kNumPits)
    else
      foldl (λ moves i, push_if_beans b moves (size b - 1 - i)) []
            (seqZ 0 kNumPits).

(** ** InitBoard and the constructor *)

(** [std::fill] over the whole array, then the two stores. *)
Definition InitBoard (b : list Z) : list Z :=
  let filled := replicate (length b) 4 in
  set_pit (set_pit filled 0 0) (size filled / 2) 0.

(** Modelled from the spec: the member initialisers of [mancala.h] (not
    among the sources).  The spec has player 0 move first on the freshly
    initialised board and the counters start from zero; the constructor
    of the sources then runs [InitBoard] on the 14 cells. *)
Definition NewInitialState : MancalaState :=
  {| board_ := InitBoard (replicate (Z.to_nat kTotalPits) 0);
     current_player_ := 0;
     num_moves_ := 0;
     history_ := [];
     move_number_ := 0 |}.

(** ** Returns *)

(** [std::accumulate(first, last, init)] over the cells from iterator
    [begin() + first] up to, not including, [begin() + last]. *)
Definition accumulate (b : list Z) (first last : Z) (init : Z) : Z :=
  foldl Z.add init (take (Z.to_nat (last - first)) (drop (Z.to_nat first) b)).

Definition player_0_bean_sum (b : list Z) : Z :=
  accumulate b 1 (kTotalPits / 2 + 1) 0.

Definition player_1_bean_sum (b : list Z) : Z :=
  accumulate b (kTotalPits / 2 + 1) (size b) 0 + pit b 0.

(** The doubles 1.0, -1.0 and 0.0 of the result are written as the
    integers they denote. *)
Definition Returns (s : MancalaState) : list Z :=
  let p0 := player_0_bean_sum (board_ s) in
  let p1 := player_1_bean_sum (board_ s) in
  if p0 >? p1 then [1; -1]
  else if p0 <? p1 then [-1; 1]
  else [0; 0].

(** ** UndoAction *)

(** [history_.pop_back()]; on an empty vector, where C++ defines nothing,
    the list stays empty. *)
Definition pop_back {A} (l : list A) : list A := removelast l.

Definition UndoAction (player move : Z) (s : MancalaState) : MancalaState :=
  {| board_ := board_ s;
     current_player_ := current_player_ s;
     num_moves_ := num_moves_ s - 1;
     history_ := pop_back (history_ s);
     move_number_ := move_number_ s - 1 |}.

(** ** The states of a game *)

(** The states a driver reaches from the start by applying actions that
    [LegalActions] offers. *)
Inductive reachable : MancalaState → Prop :=
  | reachable_init : reachable NewInitialState
  | reachable_step s move :
      reachable s → move ∈ LegalActions s → reachable (DoApplyAction move s).

(** Sum of all the pits of a board. *)
Definition total_beans (b : list Z) : Z := foldr Z.add 0 b.

(** The board is the 14-cell array. *)
Definition board_ok (b : list Z) : Prop := size b = kTotalPits.

(** The bean invariant of the data model: 14 pits, none negative, 48
    beans in all. *)
Definition bean_invariant (b : list Z) : Prop :=
  board_ok b ∧ Forall (λ x, 0 ≤ x) b ∧ total_beans b = 48.

(** ** The spec's wording of sowing, scoring and the rows *)

(** The number of turns [i] among [0 .. n-1] of a sowing from pit [p]
    that fall on ring position [j], that is with
    [(p + i + 1) mod 14 = j]. *)
Definition visits (p n j : Z) : Z :=
  Z.of_nat (length (filter (λ i, (p + i + 1) `mod` kTotalPits = j) (seqZ 0 n))).

(** Player 0's row pits and store (pits 1..7); player 1's row pits
    (8..13) and store (pit 0). *)
Definition score0 (b : list Z) : Z :=
  pit b 1 + pit b 2 + pit b 3 + pit b 4 + pit b 5 + pit b 6 + pit b 7.

Definition score1 (b : list Z) : Z :=
  (pit b 8 + pit b 9 + pit b 10 + pit b 11 + pit b 12 + pit b 13) + pit b 0.

Definition row_pits_0 : list Z := [1; 2; 3; 4; 5; 6].
Definition row_pits_1 : list Z := [8; 9; 10; 11; 12; 13].

(** The pits of a row that hold beans, in the order of the row as given. *)
Definition with_beans (b : list Z) (row : list Z) : list Z :=
  filter (λ k, 0 < pit b k) row.

(** ** ActionToString, ToString and ObservationString *)

(** [absl::StrCat] of an integer writes it in decimal, with a minus sign
    when it is negative, as stdpp's [pretty] does; [absl::StrAppend]
    adds a piece at the end of the string. *)
Definition StrCat (x : Z) : string := pretty x.
Definition StrAppend (str piece : string) : string := str +:+ piece.


(** The one-character string of a line feed. *)
Definition newline : string := String "010" "".

Definition ToString (s : MancalaState) : string :=
  let b := board_ s in
  let separator := "-" in
  let str := StrAppend "" separator in
  let str :=
    foldl (λ str i,
             StrAppend (StrAppend str (StrCat (pit b (size b - 1 - i))))
                       separator)
          str (seqZ 0 kNumPits) in
  let str := StrAppend str newline in
  let str := StrAppend str (StrCat (pit b 0)) in
  let str :=
    foldl (λ str _, StrAppend str separator) str
          (seqZ 0 (kNumPits * 2 - 1)) in
  let str := StrAppend str (StrCat (pit b (size b / 2))) in
  let str := StrAppend str newline in
  let str := StrAppend str separator in
  foldl (λ str i,
           StrAppend (StrAppend str (StrCat (pit b (i + 1)))) separator)
        str (seqZ 0 kNumPits).

(** Modelled from the spec: [num_players_], which the framework's [State]
    takes from the game; [kGameType] in the sources fixes the game to
    two players. *)
Definition num_players_ : Z := 2.

(** [SPIEL_CHECK_GE(player, 0); SPIEL_CHECK_LT(player, num_players_);]
    a failed check ends the program: [None]. *)
Definition check_player {A} (player : Z) (result : A) : option A :=
  if (0 <=? player) && (player <? num_players_) then Some result else None.

Definition ObservationString (player : Z) (s : MancalaState) : option string :=
  check_player player (ToString s).

(** A string without a separator and without a line feed. *)
Fixpoint unbroken (t : string) : Prop :=
  match t with
  | "" => True
  | String a t => a ≠ "-"%char ∧ a ≠ "010"%char ∧ unbroken t
  end.

(** The text of a run of pits: each count followed by a separator. *)
Definition row_text (cells : list Z) (rest : string) : string :=
  foldr (λ x acc, StrCat x +:+ String "-" acc) rest cells.

(** ** ObservationTensor *)

(** Modelled from the spec: [TensorView<2>] of the framework's
    tensor_view.h, which is not among the sources.  It lays a grid of
    [kCellStates] rows and [kNumCells] columns over [values], row after
    row, checks that [values] has the size of the grid, and with
    [reset = true] clears it; the spec has the grid hold 1.0 at
    [bean count, cell] and 0.0 elsewhere.  The floats 0.0 and 1.0 are
    written 0 and 1.  [kCellStates] and [kNumCells] are constants of
    [mancala.h]: parameters here. *)
Definition tensor_index (kNumCells a b : Z) : Z := a * kNumCells + b.

Definition tensor_set (kNumCells : Z) (view : list Z) (a b v : Z) : list Z :=
  <[Z.to_nat (tensor_index kNumCells a b) := v]> view.

Definition TensorView (kCellStates kNumCells : Z) (values : list Z)
    : option (list Z) :=
  if kCellStates * kNumCells =? Z.of_nat (length values)
  then Some (replicate (length values) 0)
  else None.

Definition ObservationTensor (kCellStates kNumCells : Z)
    (player : Z) (s : MancalaState) (values : list Z) : option (list Z) :=
  check_player player () ;;
  view ← TensorView kCellStates kNumCells values;
  Some (foldl (λ view cell,
                 tensor_set kNumCells view (pit (board_ s) cell) cell 1)
              view (seqZ 0 kNumCells)).

(** ** Measures of a board *)

(** The beans of the two stores. *)
Definition stores (b : list Z) : Z := pit b 0 + pit b (kTotalPits / 2).

(** How far the beans of the rows have travelled: a bean counts for the
    place of its pit in its row, 1 for the pit that follows a store and 6
    for the pit that precedes the next one. *)
Definition row_progress (b : list Z) : Z :=
  (1 * pit b 1 + 2 * pit b 2 + 3 * pit b 3
   + 4 * pit b 4 + 5 * pit b 5 + 6 * pit b 6)
  + (1 * pit b 8 + 2 * pit b 9 + 3 * pit b 10
     + 4 * pit b 11 + 5 * pit b 12 + 6 * pit b 13).

(** A stored bean outweighs any progress the rows can show. *)
Definition potential (b : list Z) : Z := 289 * stores b + row_progress b.

(** ** Worked examples *)

Example initial_board :
  board_ NewInitialState = [0; 4; 4; 4; 4; 4; 4; 0; 4; 4; 4; 4; 4; 4].
Proof. reflexivity. Qed.

Example initial_legal : LegalActions NewInitialState = [1; 2; 3; 4; 5; 6].
Proof. reflexivity. Qed.

Example apply_3 :
  DoApplyAction 3 NewInitialState =
  mkState [0; 4; 4; 0; 5; 5; 5; 1; 4; 4; 4; 4; 4; 4] 0 1 [] 0.
Proof. reflexivity. Qed.

Example apply_1 :
  DoApplyAction 1 NewInitialState =
  mkState [0; 0; 5; 5; 5; 5; 4; 0; 4; 4; 4; 4; 4; 4] 1 1 [] 0.
Proof. reflexivity. Qed.

(** ** Basic facts about the board array *)

Section board_array.
Implicit Types (b : list Z) (i j v : Z).

Lemma size_set_pit b i v : size (set_pit b i v) = size b.
Proof. unfold size, set_pit. by rewrite length_insert. Qed.

Lemma pit_set_pit_eq b i v :
  0 ≤ i < size b → pit (set_pit b i v) i = v.
Proof.
  unfold pit, set_pit, size. intros Hi.
  apply list_lookup_total_insert_eq. lia.
Qed.

Lemma pit_set_pit_ne b i j v :
  0 ≤ i → 0 ≤ j → i ≠ j → pit (set_pit b i v) j = pit b j.
Proof.
  unfold pit, set_pit. intros Hi Hj Hne.
  apply list_lookup_total_insert_ne. lia.
Qed.

Lemma total_beans_app b1 b2 :
  total_beans (b1 ++ b2) = total_beans b1 + total_beans b2.
Proof.
  unfold total_beans. induction b1 as [|x b1 IH]; simpl; [done | lia].
Qed.

Lemma total_beans_insert b (n : nat) v :
  (n < length b)%nat →
  total_beans (<[n := v]> b) = total_beans b - b !!! n + v.
Proof.
  unfold total_beans. revert n.
  induction b as [|x b IH]; intros [|n] Hn; simpl in *; try lia.
  specialize (IH n ltac:(lia)). lia.
Qed.

Lemma total_beans_set_pit b i v :
  0 ≤ i < size b →
  total_beans (set_pit b i v) = total_beans b - pit b i + v.
Proof.
  unfold set_pit, pit, size. intros Hi. apply total_beans_insert. lia.
Qed.

Lemma nonneg_set_pit b i v :
  0 ≤ v → Forall (λ x, 0 ≤ x) b → Forall (λ x, 0 ≤ x) (set_pit b i v).
Proof.
  unfold set_pit. intros Hv Hb.
  destruct (decide (Z.to_nat i < length b)%nat) as [Hlt|Hge].
  - by apply Forall_insert.
  - rewrite list_insert_ge by lia. done.
Qed.

Lemma nonneg_pit b i : Forall (λ x, 0 ≤ x) b → 0 ≤ pit b i.
Proof.
  unfold pit. intros Hb.
  destruct (b !! Z.to_nat i) as [x|] eqn:Hx.
  - rewrite (list_lookup_total_correct _ _ _ Hx).
    eapply (Forall_lookup_1 _ _ _ _ Hb Hx).
  - rewrite list_lookup_total_alt, Hx. done.
Qed.
End board_array.

(** ** The sowing loop *)

Section sowing.
Implicit Types (b : list Z) (move i j n : Z) (k : nat).

Lemma seqZ_to_nat m n : seqZ m n = seqZ m (Z.of_nat (Z.to_nat n)).
Proof. unfold seqZ. by rewrite Nat2Z.id. Qed.

Lemma sow_nonpos move n b : n ≤ 0 → sow move n b = b.
Proof. intros Hn. unfold sow. by rewrite seqZ_nil. Qed.

Lemma sow_succ move k b :
  sow move (Z.of_nat (S k)) b
  = sow_step move (sow move (Z.of_nat k) b) (Z.of_nat k).
Proof. unfold sow. by rewrite seqZ_S, foldl_app. Qed.

Lemma sow_to_nat move n b : sow move n b = sow move (Z.of_nat (Z.to_nat n)) b.
Proof. unfold sow. by rewrite <- seqZ_to_nat. Qed.

(** The ring position of turn [i]: for a pit index and a turn number
    that are not negative, [%] is the mathematical remainder. *)
Lemma ring_position move i :
  0 ≤ move → 0 ≤ i →
  Z.rem (move + i + 1) kTotalPits = (move + i + 1) `mod` kTotalPits
  ∧ 0 ≤ (move + i + 1) `mod` kTotalPits < kTotalPits.
Proof.
  intros Hm Hi. split.
  - apply Z.rem_mod_nonneg; [lia | done].
  - apply Z.mod_pos_bound. done.
Qed.

Lemma size_sow_step move b i : size (sow_step move b i) = size b.
Proof. unfold sow_step. apply size_set_pit. Qed.

Lemma size_sow move n b : size (sow move n b) = size b.
Proof.
  rewrite sow_to_nat. induction (Z.to_nat n) as [|k IH].
  - by rewrite sow_nonpos.
  - by rewrite sow_succ, size_sow_step.
Qed.

Lemma pit_sow_step move b i j :
  board_ok b → 0 ≤ move → 0 ≤ i → 0 ≤ j →
  pit (sow_step move b i) j
  = pit b j + (if decide ((move + i + 1) `mod` kTotalPits = j) then 1 else 0).
Proof.
  intros Hb Hm Hi Hj. unfold sow_step.
  destruct (ring_position move i Hm Hi) as [-> Hk].
  case_decide as Heq.
  - rewrite Heq in *. rewrite pit_set_pit_eq; [done | by rewrite Hb].
  - rewrite pit_set_pit_ne; lia.
Qed.

Lemma total_beans_sow_step move b i :
  board_ok b → 0 ≤ move → 0 ≤ i →
  total_beans (sow_step move b i) = total_beans b + 1.
Proof.
  intros Hb Hm Hi. unfold sow_step.
  destruct (ring_position move i Hm Hi) as [-> Hk].
  rewrite total_beans_set_pit; [lia | by rewrite Hb].
Qed.

Lemma nonneg_sow_step move b i :
  Forall (λ x, 0 ≤ x) b → Forall (λ x, 0 ≤ x) (sow_step move b i).
Proof.
  intros Hb. unfold sow_step. apply nonneg_set_pit; [|done].
  pose proof (nonneg_pit b (Z.rem (move + i + 1) kTotalPits) Hb). lia.
Qed.

Lemma visits_nonpos p n j : n ≤ 0 → visits p n j = 0.
Proof. intros Hn. unfold visits. by rewrite seqZ_nil. Qed.

Lemma visits_succ p k j :
  visits p (Z.of_nat (S k)) j
  = visits p (Z.of_nat k) j
    + (if decide ((p + Z.of_nat k + 1) `mod` kTotalPits = j) then 1 else 0).
Proof.
  unfold visits.
  rewrite seqZ_S, Z.add_0_l, filter_app, length_app, Nat2Z.inj_add.
  rewrite filter_cons, filter_nil. by case_decide.
Qed.

Lemma visits_to_nat p n j : visits p n j = visits p (Z.of_nat (Z.to_nat n)) j.
Proof. unfold visits. by rewrite <- seqZ_to_nat. Qed.

(** What the loop leaves in each pit. *)
Lemma pit_sow move n b j :
  board_ok b → 0 ≤ move → 0 ≤ j →
  pit (sow move n b) j = pit b j + visits move n j.
Proof.
  intros Hb Hm Hj. rewrite sow_to_nat, visits_to_nat.
  induction (Z.to_nat n) as [|k IH].
  - rewrite sow_nonpos, visits_nonpos; lia.
  - rewrite sow_succ, visits_succ, pit_sow_step, IH; try lia.
    unfold board_ok. by rewrite size_sow.
Qed.

(** The loop adds one bean a turn. *)
Lemma total_beans_sow move n b :
  board_ok b → 0 ≤ move → 0 ≤ n →
  total_beans (sow move n b) = total_beans b + n.
Proof.
  intros Hb Hm Hn. rewrite sow_to_nat.
  rewrite <- (Z2Nat.id n) at 2 by done.
  induction (Z.to_nat n) as [|k IH].
  - rewrite sow_nonpos; lia.
  - rewrite sow_succ, total_beans_sow_step, IH; try lia.
    unfold board_ok. by rewrite size_sow.
Qed.

Lemma nonneg_sow move n b :
  Forall (λ x, 0 ≤ x) b → Forall (λ x, 0 ≤ x) (sow move n b).
Proof.
  intros Hb. rewrite sow_to_nat. induction (Z.to_nat n) as [|k IH].
  - by rewrite sow_nonpos.
  - rewrite sow_succ. by apply nonneg_sow_step.
Qed.
End sowing.

(** ** DoApplyAction: the board it leaves *)

Section apply_action.
Implicit Types (s : MancalaState) (b : list Z) (move p j n : Z).

Lemma board_DoApplyAction move s :
  board_ (DoApplyAction move s)
  = sow move (pit (board_ s) move) (set_pit (board_ s) move 0).
Proof. reflexivity. Qed.

Lemma board_ok_set_pit b i v : board_ok b → board_ok (set_pit b i v).
Proof. unfold board_ok. by rewrite size_set_pit. Qed.

Lemma board_ok_sow move n b : board_ok b → board_ok (sow move n b).
Proof. unfold board_ok. by rewrite size_sow. Qed.

(** Writing into a pit the value it holds changes nothing. *)
Lemma set_pit_same b i : 0 ≤ i < size b → set_pit b i (pit b i) = b.
Proof.
  unfold set_pit, pit, size. intros Hi.
  apply list_insert_id, list_lookup_lookup_total_lt. lia.
Qed.

(** A position within reach of the sowing gets a bean, whichever pit it
    is: the turn [(j - p - 1) mod 14] falls on [j]. *)
Lemma visits_reached p n j :
  0 ≤ j < kTotalPits → (j - p - 1) `mod` kTotalPits < n → 1 ≤ visits p n j.
Proof.
  intros Hj Hn. unfold visits.
  set (i := (j - p - 1) `mod` kTotalPits) in *.
  assert (Hi : 0 ≤ i < kTotalPits) by (apply Z.mod_pos_bound; done).
  assert (Hin : i ∈ filter (λ i, (p + i + 1) `mod` kTotalPits = j) (seqZ 0 n)).
  { apply list_elem_of_filter. split; [|apply elem_of_seqZ; lia].
    subst i. change kTotalPits with 14 in *.
    Z.to_euclidean_division_equations; lia. }
  destruct (filter _ _) as [|x l]; [by apply elem_of_nil in Hin|].
  simpl. lia.
Qed.

Lemma bean_invariant_DoApplyAction move s :
  bean_invariant (board_ s) → 0 ≤ move < kTotalPits →
  bean_invariant (board_ (DoApplyAction move s)).
Proof.
  intros (Hok & Hpos & Htot) Hm. rewrite board_DoApplyAction.
  pose proof (nonneg_pit (board_ s) move Hpos) as Hn.
  split; [|split].
  - by apply board_ok_sow, board_ok_set_pit.
  - by apply nonneg_sow, nonneg_set_pit.
  - rewrite total_beans_sow; [|by apply board_ok_set_pit|lia|done].
    rewrite total_beans_set_pit; [lia | by rewrite Hok].
Qed.
End apply_action.

(** ** IsTerminal and LegalActions: the loops as facts about the rows *)

Section rows.
Implicit Types (s : MancalaState) (b : list Z) (k i : Z).

Lemma existsb_seqZ_false (f : Z → bool) n :
  existsb f (seqZ 0 n) = false ↔ ∀ i, 0 ≤ i < n → f i = false.
Proof.
  rewrite <- not_true_iff_false, existsb_exists. split.
  - intros Hno i Hi. apply not_true_iff_false. intros Hf. apply Hno.
    exists i. split; [|done]. apply list_elem_of_In, elem_of_seqZ. lia.
  - intros Hall (i & Hin & Hf).
    apply list_elem_of_In, elem_of_seqZ in Hin.
    rewrite Hall in Hf by lia. done.
Qed.

Lemma player_0_has_moves_false b :
  player_0_has_moves b = false ↔ ∀ k, 1 ≤ k ≤ 6 → pit b k ≤ 0.
Proof.
  unfold player_0_has_moves. rewrite existsb_seqZ_false.
  change kNumPits with 6. split.
  - intros H k Hk. specialize (H (k - 1) ltac:(lia)).
    replace (k - 1 + 1) with k in H by lia. lia.
  - intros H i Hi. specialize (H (i + 1) ltac:(lia)). lia.
Qed.

Lemma player_1_has_moves_false b :
  board_ok b →
  player_1_has_moves b = false ↔ ∀ k, 8 ≤ k ≤ 13 → pit b k ≤ 0.
Proof.
  intros Hok. unfold player_1_has_moves. rewrite existsb_seqZ_false, Hok.
  change kNumPits with 6. change kTotalPits with 14. split.
  - intros H k Hk. specialize (H (13 - k) ltac:(lia)).
    replace (14 - 1 - (13 - k)) with k in H by lia. lia.
  - intros H i Hi. specialize (H (14 - 1 - i) ltac:(lia)). lia.
Qed.

Lemma IsTerminal_rows s :
  board_ok (board_ s) →
  IsTerminal s = true ↔
    (∀ k, 1 ≤ k ≤ 6 → pit (board_ s) k ≤ 0)
    ∨ (∀ k, 8 ≤ k ≤ 13 → pit (board_ s) k ≤ 0).
Proof.
  intros Hok. unfold IsTerminal.
  rewrite orb_true_iff, !negb_true_iff.
  by rewrite player_0_has_moves_false, player_1_has_moves_false.
Qed.

(** The push loop keeps, in the loop's order, the visited pits that hold
    beans. *)
Lemma foldl_push_if_beans b (f : Z → Z) (l acc : list Z) :
  foldl (λ moves i, push_if_beans b moves (f i)) acc l
  = acc ++ with_beans b (f <$> l).
Proof.
  revert acc. induction l as [|i l IH]; intros acc; simpl.
  - by rewrite app_nil_r.
  - rewrite IH. unfold push_if_beans, with_beans.
    rewrite filter_cons. destruct (Z.ltb_spec 0 (pit b (f i))).
    + rewrite decide_True by done. by rewrite <- app_assoc.
    + rewrite decide_False by lia. done.
Qed.

Lemma LegalActions_rows s :
  board_ok (board_ s) →
  LegalActions s =
    if IsTerminal s then []
    else if current_player_ s =? 0 then with_beans (board_ s) row_pits_0
    else with_beans (board_ s) (reverse row_pits_1).
Proof.
  intros Hok. unfold LegalActions.
  destruct (IsTerminal s); [done|].
  rewrite Hok. destruct (current_player_ s =? 0).
  - by rewrite (foldl_push_if_beans _ (λ i, i + 1)).
  - by rewrite (foldl_push_if_beans _ (λ i, kTotalPits - 1 - i)).
Qed.

(** What [LegalActions] offers is a row pit of the mover, with beans. *)
Lemma LegalActions_elem s move :
  board_ok (board_ s) → move ∈ LegalActions s →
  0 < pit (board_ s) move
  ∧ (if current_player_ s =? 0 then 1 ≤ move ≤ 6 else 8 ≤ move ≤ 13).
Proof.
  intros Hok. rewrite LegalActions_rows by done.
  destruct (IsTerminal s); [by intros ?%elem_of_nil|].
  unfold with_beans.
  destruct (current_player_ s =? 0);
    intros [Hpit Hin]%list_elem_of_filter; (split; [done|]);
    repeat (apply elem_of_cons in Hin as [->|Hin]; [lia|]);
    by apply elem_of_nil in Hin.
Qed.
End rows.

(** ** Returns: the two sums *)

Section scoring.
Implicit Types (s : MancalaState) (b : list Z).

(** A board of 14 cells, cell by cell. *)
Lemma board_ok_cells b :
  board_ok b →
  ∃ x0 x1 x2 x3 x4 x5 x6 x7 x8 x9 x10 x11 x12 x13,
    b = [x0; x1; x2; x3; x4; x5; x6; x7; x8; x9; x10; x11; x12; x13].
Proof.
  unfold board_ok, size. change kTotalPits with 14. intros Hlen.
  do 14 (destruct b as [|? b]; [simpl in Hlen; lia|]).
  destruct b; [|simpl in Hlen; lia]. by repeat eexists.
Qed.

Lemma player_0_bean_sum_score0 b :
  board_ok b → player_0_bean_sum b = score0 b.
Proof.
  intros (x0&x1&x2&x3&x4&x5&x6&x7&x8&x9&x10&x11&x12&x13&->)%board_ok_cells.
  unfold player_0_bean_sum, score0, accumulate, pit. simpl. lia.
Qed.

Lemma player_1_bean_sum_score1 b :
  board_ok b → player_1_bean_sum b = score1 b.
Proof.
  intros (x0&x1&x2&x3&x4&x5&x6&x7&x8&x9&x10&x11&x12&x13&->)%board_ok_cells.
  unfold player_1_bean_sum, score1, accumulate, pit. simpl. lia.
Qed.

Lemma Returns_scores s :
  board_ok (board_ s) →
  Returns s =
    if decide (score0 (board_ s) > score1 (board_ s)) then [1; -1]
    else if decide (score0 (board_ s) < score1 (board_ s)) then [-1; 1]
    else [0; 0].
Proof.
  intros Hok. unfold Returns.
  rewrite player_0_bean_sum_score0, player_1_bean_sum_score1 by done.
  destruct (Z.gtb_spec (score0 (board_ s)) (score1 (board_ s)));
    [by rewrite decide_True by lia|rewrite decide_False by lia].
  destruct (Z.ltb_spec (score0 (board_ s)) (score1 (board_ s)));
    [by rewrite decide_True by lia|by rewrite decide_False by lia].
Qed.
End scoring.

(** ** The bean invariant along a game *)

Lemma bean_invariant_initial : bean_invariant (board_ NewInitialState).
Proof.
  split; [done|]. split; [|done].
  simpl. repeat (apply Forall_cons; split; [lia|]). apply Forall_nil_2.
Qed.

Lemma reachable_bean_invariant s : reachable s → bean_invariant (board_ s).
Proof.
  induction 1 as [|s move Hs IH Hmove].
  - apply bean_invariant_initial.
  - apply bean_invariant_DoApplyAction; [done|].
    destruct IH as (Hok & _).
    destruct (LegalActions_elem s move Hok Hmove) as [_ Hrow].
    change kTotalPits with 14. destruct (current_player_ s =? 0); lia.
Qed.

Lemma pit_le_total_beans (b : list Z) (x : Z) :
  Forall (λ x, 0 ≤ x) b → x ∈ b → x ≤ total_beans b.
Proof.
  unfold total_beans.
  induction 1 as [|y b Hy Hb IH]; intros Hin; [by apply elem_of_nil in Hin|].
  assert (0 ≤ foldr Z.add 0 b).
  { clear IH Hin. induction Hb; simpl; lia. }
  apply elem_of_cons in Hin as [->|Hin]; simpl; [lia|].
  specialize (IH Hin). lia.
Qed.

(** Every pit of a board the game reaches holds between 0 and 48 beans. *)
Lemma reachable_pit_bounds s j :
  reachable s → 0 ≤ j < kTotalPits → 0 ≤ pit (board_ s) j ≤ 48.
Proof.
  intros (Hok & Hpos & Htot)%reachable_bean_invariant Hj. split.
  - by apply nonneg_pit.
  - rewrite <- Htot. apply pit_le_total_beans; [done|].
    unfold pit. apply list_elem_of_lookup. exists (Z.to_nat j).
    apply list_lookup_lookup_total_lt. unfold board_ok, size in Hok. lia.
Qed.

(** C1 — bean conservation and non-negativity.  On every state reached
    from the initial state through legal actions the 14 pits hold 48
    beans in all and none of them is negative; and [DoApplyAction], at
    any pit index of the ring, keeps both facts on any board that has
    them. *)
Theorem bean_conservation :
  (∀ s, reachable s →
     size (board_ s) = 14
     ∧ total_beans (board_ s) = 48
     ∧ Forall (λ x, 0 ≤ x) (board_ s))
  ∧ (∀ s move,
       bean_invariant (board_ s) → 0 ≤ move < kTotalPits →
       bean_invariant (board_ (DoApplyAction move s))).
Proof.
  split.
  - intros s (Hok & Hpos & Htot)%reachable_bean_invariant. done.
  - intros s move. apply bean_invariant_DoApplyAction.
Qed.

(** C2 — the sowing.  After an action at pit [p] holding [n] beans, pit
    [j] of the ring holds what it held before (0 for [p] itself, which is
    emptied first) plus one bean for every turn [i] of [0 .. n-1] with
    [(p + i + 1) mod 14 = j].  No position is left out: any [j] whose turn
    [(j - p - 1) mod 14] comes before [n], a store as well as a row pit,
    receives a bean. *)
Theorem DoApplyAction_sowing s p j :
  board_ok (board_ s) → 0 ≤ p < kTotalPits → 0 ≤ j < kTotalPits →
  pit (board_ (DoApplyAction p s)) j
  = (if decide (j = p) then 0 else pit (board_ s) j)
    + visits p (pit (board_ s) p) j
  ∧ ((j - p - 1) `mod` kTotalPits < pit (board_ s) p →
     1 ≤ visits p (pit (board_ s) p) j).
Proof.
  intros Hok Hp Hj. split; [|by apply visits_reached].
  rewrite board_DoApplyAction.
  rewrite pit_sow; [|by apply board_ok_set_pit|lia..].
  f_equal. case_decide as Heq.
  - subst j. apply pit_set_pit_eq. by rewrite Hok.
  - apply pit_set_pit_ne; lia.
Qed.

(** C3 — turn continuation.  The home pit is 7 for player 0 and 0 for
    player 1.  After sowing the [n] beans of pit [p], the player to move
    is unchanged when [(p + n) mod 14] is the mover's home pit, and is
    the other player, [1 - current_player_], otherwise; the move counter
    goes up by one either way. *)
Theorem DoApplyAction_turn s p :
  0 ≤ p < kTotalPits → 0 ≤ pit (board_ s) p →
  GetPlayerHomePit 0 = 7 ∧ GetPlayerHomePit 1 = 0
  ∧ current_player_ (DoApplyAction p s)
    = (if decide ((p + pit (board_ s) p) `mod` kTotalPits
                  = GetPlayerHomePit (current_player_ s))
       then current_player_ s
       else 1 - current_player_ s)
  ∧ num_moves_ (DoApplyAction p s) = num_moves_ s + 1.
Proof.
  intros Hp Hn. repeat split. simpl.
  rewrite Z.rem_mod_nonneg by (change kTotalPits with 14; lia).
  destruct (Z.eqb_spec ((p + pit (board_ s) p) `mod` kTotalPits)
              (GetPlayerHomePit (current_player_ s))); simpl.
  - by rewrite decide_True.
  - by rewrite decide_False.
Qed.

(** C9 — an action at an empty pit.  For a pit index [p] of the ring
    whose pit holds no bean, [DoApplyAction] leaves the board as it is,
    adds one to the move counter, and hands the move to the other player
    unless [p] is the mover's home pit. *)
Theorem DoApplyAction_empty_pit s p :
  board_ok (board_ s) → 0 ≤ p < kTotalPits → pit (board_ s) p = 0 →
  board_ (DoApplyAction p s) = board_ s
  ∧ num_moves_ (DoApplyAction p s) = num_moves_ s + 1
  ∧ current_player_ (DoApplyAction p s)
    = (if decide (p = GetPlayerHomePit (current_player_ s))
       then current_player_ s
       else 1 - current_player_ s).
Proof.
  intros Hok Hp Hempty. split; [|split; [done|]].
  - rewrite board_DoApplyAction, Hempty, sow_nonpos by done.
    rewrite <- Hempty. apply set_pit_same. by rewrite Hok.
  - simpl. rewrite Hempty, Z.add_0_r.
    rewrite Z.rem_small by done.
    destruct (Z.eqb_spec p (GetPlayerHomePit (current_player_ s))); simpl.
    + by rewrite decide_True.
    + by rewrite decide_False.
Qed.

(** C4 (as amended) — the order of the legal moves.  On a state that is
    not terminal, [LegalActions] is exactly the list of the mover's row
    pits that hold beans: pits 1..6 in increasing order when player 0 is
    to move, pits 8..13 in decreasing order, 13 first, when player 1
    is. *)
Theorem LegalActions_order s :
  board_ok (board_ s) → IsTerminal s = false →
  (current_player_ s = 0 →
     LegalActions s = with_beans (board_ s) row_pits_0)
  ∧ (current_player_ s = 1 →
     LegalActions s = with_beans (board_ s) (reverse row_pits_1)).
Proof.
  intros Hok Hnt. rewrite LegalActions_rows, Hnt by done.
  split; intros ->; done.
Qed.

(** C4 as it was stated fails for player 1: after player 0 opens with
    pit 1 it is player 1's move, all six pits 8..13 hold beans, and the
    list starts at 13 and goes down, so it is not the increasing list of
    those pits. *)
Lemma LegalActions_player_1_not_increasing :
  board_ok (board_ (DoApplyAction 1 NewInitialState))
  ∧ IsTerminal (DoApplyAction 1 NewInitialState) = false
  ∧ current_player_ (DoApplyAction 1 NewInitialState) = 1
  ∧ LegalActions (DoApplyAction 1 NewInitialState) = [13; 12; 11; 10; 9; 8]
  ∧ LegalActions (DoApplyAction 1 NewInitialState)
    ≠ with_beans (board_ (DoApplyAction 1 NewInitialState)) row_pits_1.
Proof. repeat split. discriminate. Qed.

(** C5 — the terminal test.  On a board of non-negative pits,
    [IsTerminal] holds exactly when the six pits 1..6 are all empty or
    the six pits 8..13 are all empty; one side suffices. *)
Theorem IsTerminal_iff s :
  board_ok (board_ s) → Forall (λ x, 0 ≤ x) (board_ s) →
  IsTerminal s = true ↔
    (∀ k, 1 ≤ k ≤ 6 → pit (board_ s) k = 0)
    ∨ (∀ k, 8 ≤ k ≤ 13 → pit (board_ s) k = 0).
Proof.
  intros Hok Hpos. rewrite IsTerminal_rows by done.
  assert (Hz : ∀ k, pit (board_ s) k ≤ 0 ↔ pit (board_ s) k = 0).
  { intros k. pose proof (nonneg_pit (board_ s) k Hpos). lia. }
  split; (intros [H|H]; [left|right]); intros k Hk; apply Hz, H, Hk.
Qed.

(** C6 — scoring of a terminal state.  With [score0] the beans of pits
    1..7 and [score1] those of pits 8..13 and pit 0, [Returns] is
    (1, -1) when [score0 > score1], (-1, 1) when [score0 < score1] and
    (0, 0) when they are equal, and so never another pair. *)
Theorem Returns_terminal s :
  board_ok (board_ s) → IsTerminal s = true →
  (score0 (board_ s) > score1 (board_ s) → Returns s = [1; -1])
  ∧ (score0 (board_ s) < score1 (board_ s) → Returns s = [-1; 1])
  ∧ (score0 (board_ s) = score1 (board_ s) → Returns s = [0; 0])
  ∧ Returns s ∈ [[1; -1]; [-1; 1]; [0; 0]].
Proof.
  intros Hok _. rewrite Returns_scores by done.
  repeat split; try (intros H; repeat case_decide; (done || lia)).
  repeat case_decide; apply list_elem_of_In; simpl; auto.
Qed.

(** C7 — terminality comes first.  On a terminal state [LegalActions]
    is empty, whatever beans the other row still holds. *)
Theorem LegalActions_terminal s :
  IsTerminal s = true → LegalActions s = [].
Proof. intros Ht. unfold LegalActions. by rewrite Ht. Qed.

(** C8 — the partial undo.  [UndoAction] takes one off both move
    counters and drops the last entry of the history; the 14 pits and the
    player to move are those of the state it is given, hence, after a
    move, those the move produced and not those before it. *)
Theorem UndoAction_partial player move s :
  num_moves_ (UndoAction player move s) = num_moves_ s - 1
  ∧ move_number_ (UndoAction player move s) = move_number_ s - 1
  ∧ (∀ h e, history_ s = h ++ [e] → history_ (UndoAction player move s) = h)
  ∧ board_ (UndoAction player move s) = board_ s
  ∧ current_player_ (UndoAction player move s) = current_player_ s
  ∧ board_ (UndoAction 0 1 (DoApplyAction 1 NewInitialState))
    ≠ board_ NewInitialState
  ∧ current_player_ (UndoAction 0 1 (DoApplyAction 1 NewInitialState))
    ≠ current_player_ NewInitialState.
Proof.
  repeat split; try discriminate.
  intros h e Hh. simpl. rewrite Hh. apply removelast_last.
Qed.

(** C10 — [Returns] on any state.  Terminal or not, [Returns] yields
    one of (1, -1), (-1, 1), (0, 0), and which one is settled by the
    same sums: the first exactly when [score0 > score1], the second
    exactly when [score0 < score1], the third exactly when they are
    equal. *)
Theorem Returns_total s :
  board_ok (board_ s) →
  Returns s ∈ [[1; -1]; [-1; 1]; [0; 0]]
  ∧ (Returns s = [1; -1] ↔ score0 (board_ s) > score1 (board_ s))
  ∧ (Returns s = [-1; 1] ↔ score0 (board_ s) < score1 (board_ s))
  ∧ (Returns s = [0; 0] ↔ score0 (board_ s) = score1 (board_ s)).
Proof.
  intros Hok. rewrite Returns_scores by done.
  repeat case_decide; (split; [apply list_elem_of_In; simpl; auto|]);
    repeat split; intros; (done || lia).
Qed.

(** ** The theorems at concrete states *)

Lemma bean_conservation_witness :
  size (board_ (DoApplyAction 3 NewInitialState)) = 14
  ∧ total_beans (board_ (DoApplyAction 3 NewInitialState)) = 48
  ∧ Forall (λ x, 0 ≤ x) (board_ (DoApplyAction 3 NewInitialState)).
Proof.
  apply (proj1 bean_conservation).
  apply reachable_step; [apply reachable_init|].
  apply list_elem_of_In. vm_compute. auto.
Defined.

Lemma DoApplyAction_sowing_witness :
  pit (board_ (DoApplyAction 3 NewInitialState)) 7
  = (if decide (7 = 3) then 0 else pit (board_ NewInitialState) 7)
    + visits 3 (pit (board_ NewInitialState) 3) 7
  ∧ ((7 - 3 - 1) `mod` kTotalPits < pit (board_ NewInitialState) 3 →
     1 ≤ visits 3 (pit (board_ NewInitialState) 3) 7).
Proof.
  apply (DoApplyAction_sowing NewInitialState 3 7);
    [reflexivity | unfold kTotalPits, kNumPits; lia..].
Defined.

Lemma DoApplyAction_turn_witness :
  GetPlayerHomePit 0 = 7 ∧ GetPlayerHomePit 1 = 0
  ∧ current_player_ (DoApplyAction 3 NewInitialState)
    = (if decide ((3 + pit (board_ NewInitialState) 3) `mod` kTotalPits
                  = GetPlayerHomePit (current_player_ NewInitialState))
       then current_player_ NewInitialState
       else 1 - current_player_ NewInitialState)
  ∧ num_moves_ (DoApplyAction 3 NewInitialState)
    = num_moves_ NewInitialState + 1.
Proof.
  apply (DoApplyAction_turn NewInitialState 3);
    [unfold kTotalPits, kNumPits; lia | vm_compute; discriminate].
Defined.

Lemma DoApplyAction_empty_pit_witness :
  board_ (DoApplyAction 0 NewInitialState) = board_ NewInitialState
  ∧ num_moves_ (DoApplyAction 0 NewInitialState)
    = num_moves_ NewInitialState + 1
  ∧ current_player_ (DoApplyAction 0 NewInitialState)
    = (if decide (0 = GetPlayerHomePit (current_player_ NewInitialState))
       then current_player_ NewInitialState
       else 1 - current_player_ NewInitialState).
Proof.
  apply (DoApplyAction_empty_pit NewInitialState 0);
    [reflexivity | unfold kTotalPits, kNumPits; lia | reflexivity].
Defined.

Lemma LegalActions_order_witness :
  (current_player_ (DoApplyAction 1 NewInitialState) = 0 →
     LegalActions (DoApplyAction 1 NewInitialState)
     = with_beans (board_ (DoApplyAction 1 NewInitialState)) row_pits_0)
  ∧ (current_player_ (DoApplyAction 1 NewInitialState) = 1 →
     LegalActions (DoApplyAction 1 NewInitialState)
     = with_beans (board_ (DoApplyAction 1 NewInitialState))
         (reverse row_pits_1)).
Proof.
  apply (LegalActions_order (DoApplyAction 1 NewInitialState));
    reflexivity.
Defined.

Lemma IsTerminal_iff_witness :
  IsTerminal NewInitialState = true ↔
    (∀ k, 1 ≤ k ≤ 6 → pit (board_ NewInitialState) k = 0)
    ∨ (∀ k, 8 ≤ k ≤ 13 → pit (board_ NewInitialState) k = 0).
Proof.
  apply (IsTerminal_iff NewInitialState); [reflexivity|].
  change (board_ NewInitialState)
    with [0; 4; 4; 4; 4; 4; 4; 0; 4; 4; 4; 4; 4; 4].
  repeat (apply Forall_cons; split; [lia|]). apply Forall_nil_2.
Defined.

Lemma Returns_terminal_witness :
  (score0 [0; 0; 0; 0; 0; 0; 0; 30; 3; 3; 3; 3; 3; 3]
   > score1 [0; 0; 0; 0; 0; 0; 0; 30; 3; 3; 3; 3; 3; 3] →
   Returns (mkState [0; 0; 0; 0; 0; 0; 0; 30; 3; 3; 3; 3; 3; 3] 1 9 [] 9)
   = [1; -1])
  ∧ (score0 [0; 0; 0; 0; 0; 0; 0; 30; 3; 3; 3; 3; 3; 3]
     < score1 [0; 0; 0; 0; 0; 0; 0; 30; 3; 3; 3; 3; 3; 3] →
     Returns (mkState [0; 0; 0; 0; 0; 0; 0; 30; 3; 3; 3; 3; 3; 3] 1 9 [] 9)
     = [-1; 1])
  ∧ (score0 [0; 0; 0; 0; 0; 0; 0; 30; 3; 3; 3; 3; 3; 3]
     = score1 [0; 0; 0; 0; 0; 0; 0; 30; 3; 3; 3; 3; 3; 3] →
     Returns (mkState [0; 0; 0; 0; 0; 0; 0; 30; 3; 3; 3; 3; 3; 3] 1 9 [] 9)
     = [0; 0])
  ∧ Returns (mkState [0; 0; 0; 0; 0; 0; 0; 30; 3; 3; 3; 3; 3; 3] 1 9 [] 9)
    ∈ [[1; -1]; [-1; 1]; [0; 0]].
Proof.
  apply (Returns_terminal
           (mkState [0; 0; 0; 0; 0; 0; 0; 30; 3; 3; 3; 3; 3; 3] 1 9 [] 9));
    reflexivity.
Defined.

Lemma LegalActions_terminal_witness :
  LegalActions (mkState [0; 0; 0; 0; 0; 0; 0; 30; 3; 3; 3; 3; 3; 3] 1 9 [] 9)
  = [].
Proof.
  apply (LegalActions_terminal
           (mkState [0; 0; 0; 0; 0; 0; 0; 30; 3; 3; 3; 3; 3; 3] 1 9 [] 9)).
  reflexivity.
Defined.

Lemma Returns_total_witness :
  Returns NewInitialState ∈ [[1; -1]; [-1; 1]; [0; 0]]
  ∧ (Returns NewInitialState = [1; -1]
     ↔ score0 (board_ NewInitialState) > score1 (board_ NewInitialState))
  ∧ (Returns NewInitialState = [-1; 1]
     ↔ score0 (board_ NewInitialState) < score1 (board_ NewInitialState))
  ∧ (Returns NewInitialState = [0; 0]
     ↔ score0 (board_ NewInitialState) = score1 (board_ NewInitialState)).
Proof. apply (Returns_total NewInitialState). reflexivity. Defined.


(** ** More on the sowing: how many beans each pit receives *)

Section sowing_count.
Implicit Types (s : MancalaState) (b : list Z) (p j n : Z) (k : nat).

Lemma visits_nonneg p n j : 0 ≤ visits p n j.
Proof. unfold visits. lia. Qed.

(** The turns of a sowing go round the ring: [n / 14] full laps, and one
    more bean for the [n mod 14] positions that follow the pit. *)
Lemma visits_laps p n j :
  0 ≤ n → 0 ≤ j < kTotalPits →
  visits p n j
  = n / kTotalPits
    + (if decide ((j - p - 1) `mod` kTotalPits < n `mod` kTotalPits)
       then 1 else 0).
Proof.
  intros Hn Hj. rewrite <- (Z2Nat.id n) by done.
  generalize (Z.to_nat n) as k. clear n Hn.
  induction k as [|k IH].
  - rewrite visits_nonpos by done. change kTotalPits with 14 in *.
    case_decide; Z.to_euclidean_division_equations; lia.
  - rewrite visits_succ, IH. change kTotalPits with 14 in *.
    rewrite Nat2Z.inj_succ.
    repeat case_decide; Z.to_euclidean_division_equations; lia.
Qed.

Lemma pit_DoApplyAction s p j :
  board_ok (board_ s) → 0 ≤ p < kTotalPits → 0 ≤ j < kTotalPits →
  pit (board_ (DoApplyAction p s)) j
  = (if decide (j = p) then 0 else pit (board_ s) j)
    + visits p (pit (board_ s) p) j.
Proof.
  intros Hok Hp Hj. rewrite board_DoApplyAction.
  rewrite pit_sow; [|by apply board_ok_set_pit|lia..].
  f_equal. case_decide as Heq.
  - subst j. apply pit_set_pit_eq. by rewrite Hok.
  - apply pit_set_pit_ne; lia.
Qed.
End sowing_count.

(** ** Every move makes progress *)

Section progress.
Implicit Types (s : MancalaState) (b : list Z) (p j n : Z).

Lemma potential_bounds b :
  bean_invariant b →
  0 ≤ stores b ∧ 0 ≤ row_progress b ≤ 6 * (48 - stores b).
Proof.
  intros (Hok & Hpos & Htot).
  destruct (board_ok_cells b Hok)
    as (x0&x1&x2&x3&x4&x5&x6&x7&x8&x9&x10&x11&x12&x13&->).
  repeat (apply Forall_cons in Hpos as [? Hpos]).
  unfold total_beans in Htot. simpl in Htot.
  unfold stores, row_progress, pit. simpl. lia.
Qed.

(** Sowing a row pit that holds beans raises the potential: either a
    bean reaches a store, or the beans stay in the row and move on. *)
Lemma potential_step s p :
  bean_invariant (board_ s) → 1 ≤ p ≤ 6 ∨ 8 ≤ p ≤ 13 →
  0 < pit (board_ s) p →
  potential (board_ s) < potential (board_ (DoApplyAction p s)).
Proof.
  intros Hinv Hp Hn.
  assert (Hp' : 0 ≤ p < kTotalPits) by (change kTotalPits with 14; lia).
  pose proof (bean_invariant_DoApplyAction p s Hinv Hp') as Hinv'.
  pose proof (potential_bounds _ Hinv) as Hb.
  pose proof (potential_bounds _ Hinv') as Hb'.
  assert (Hpit : ∀ j, 0 ≤ j < 14 →
            pit (board_ (DoApplyAction p s)) j
            = (if decide (j = p) then 0 else pit (board_ s) j)
              + visits p (pit (board_ s) p) j).
  { intros j Hj. apply pit_DoApplyAction; [apply Hinv|done..]. }
  pose proof (visits_nonneg p (pit (board_ s) p) 0) as Hv0.
  pose proof (visits_nonneg p (pit (board_ s) p) 7) as Hv7.
  pose proof (visits_reached p (pit (board_ s) p) 0 ltac:(done)) as Hr0.
  pose proof (visits_reached p (pit (board_ s) p) 7 ltac:(done)) as Hr7.
  unfold potential, stores, row_progress in *.
  change (kTotalPits / 2) with 7 in *. change kTotalPits with 14 in *.
  rewrite !Hpit in * by lia. clear Hpit Hinv Hinv'.
  assert (p = 1 ∨ p = 2 ∨ p = 3 ∨ p = 4 ∨ p = 5 ∨ p = 6
          ∨ p = 8 ∨ p = 9 ∨ p = 10 ∨ p = 11 ∨ p = 12 ∨ p = 13)
    as Hcase by lia.
  clear Hp Hp'.
  repeat (destruct Hcase as [->|Hcase]); [..|subst p];
    repeat (case_decide; try (exfalso; lia));
    match goal with
    | H : 0 < pit (board_ s) ?q |- _ =>
        assert (pit (board_ s) q = 1 ∨ pit (board_ s) q = 2
                ∨ pit (board_ s) q = 3 ∨ pit (board_ s) q = 4
                ∨ pit (board_ s) q = 5 ∨ 6 ≤ pit (board_ s) q)
          as Hbeans by lia
    end;
    repeat (destruct Hbeans as [Hbeans|Hbeans]);
    try (rewrite Hbeans in *;
         repeat match goal with
           | H : context [visits ?a ?c ?j] |- _ =>
               let v := eval vm_compute in (visits a c j) in
               change (visits a c j) with v in H
           | |- context [visits ?a ?c ?j] =>
               let v := eval vm_compute in (visits a c j) in
               change (visits a c j) with v
           end);
    Z.to_euclidean_division_equations; lia.
Qed.
End progress.

(** ** Further properties of the moves on offer *)

Section offered_moves.
Implicit Types (s : MancalaState) (b : list Z) (move k : Z).

Lemma elem_of_row_pits_0 k : k ∈ row_pits_0 ↔ 1 ≤ k ≤ 6.
Proof. change row_pits_0 with (seqZ 1 6). rewrite elem_of_seqZ. lia. Qed.

Lemma elem_of_row_pits_1 k : k ∈ reverse row_pits_1 ↔ 8 ≤ k ≤ 13.
Proof.
  rewrite elem_of_reverse. change row_pits_1 with (seqZ 8 6).
  rewrite elem_of_seqZ. lia.
Qed.

Lemma NoDup_rows : NoDup row_pits_0 ∧ NoDup (reverse row_pits_1).
Proof. split; apply (bool_decide_unpack _); vm_compute; exact I. Qed.

Lemma with_beans_nil b row :
  with_beans b row = [] → ∀ k, k ∈ row → pit b k ≤ 0.
Proof.
  intros Hnil k Hk.
  destruct (decide (0 < pit b k)) as [Hpos|]; [|lia].
  by destruct (filter_nil_not_elem_of _ _ _ Hnil Hpos).
Qed.
End offered_moves.

(** X1 — what [LegalActions] offers.  On a 14-pit board a pit index is in
    the list exactly when the state is not terminal, the pit holds a bean,
    and it is a row pit of the player to move: 1..6 for player 0, 8..13
    otherwise.  Stores, empty pits and the other player's pits are never
    offered, and no legal pit is missing. *)
Theorem LegalActions_elem_iff s move :
  board_ok (board_ s) →
  move ∈ LegalActions s ↔
    IsTerminal s = false
    ∧ 0 < pit (board_ s) move
    ∧ (if current_player_ s =? 0 then 1 ≤ move ≤ 6 else 8 ≤ move ≤ 13).
Proof.
  intros Hok. rewrite LegalActions_rows by done. unfold with_beans.
  destruct (IsTerminal s).
  { split; [by intros ?%elem_of_nil | by intros [? _]]. }
  destruct (current_player_ s =? 0); rewrite list_elem_of_filter.
  - rewrite elem_of_row_pits_0. tauto.
  - rewrite elem_of_row_pits_1. tauto.
Qed.

(** X2 — the list of legal moves names no pit twice, has at most six
    entries, and never holds a store (pit 0 or pit 7). *)
Theorem LegalActions_NoDup s :
  board_ok (board_ s) →
  NoDup (LegalActions s)
  ∧ (length (LegalActions s) ≤ 6)%nat
  ∧ (0 ∉ LegalActions s) ∧ (7 ∉ LegalActions s).
Proof.
  intros Hok. destruct NoDup_rows as [Hnd0 Hnd1].
  assert (Hstore : ∀ k, k ∈ LegalActions s → k ≠ 0 ∧ k ≠ 7).
  { intros k Hk. destruct (LegalActions_elem s k Hok Hk) as [_ Hrow].
    destruct (current_player_ s =? 0); lia. }
  split; [|split; [|split; intros H%Hstore; lia]].
  - rewrite LegalActions_rows by done.
    destruct (IsTerminal s); [apply NoDup_nil_2|].
    destruct (current_player_ s =? 0); by apply NoDup_filter.
  - rewrite LegalActions_rows by done.
    destruct (IsTerminal s); [simpl; lia|].
    destruct (current_player_ s =? 0); unfold with_beans;
      (etrans; [apply length_filter|done]).
Qed.

(** X3 — no dead end.  On a 14-pit board the list of legal moves is
    empty exactly when the state is terminal: a state that is not
    terminal always leaves the player to move a pit to sow. *)
Theorem LegalActions_nil_iff s :
  board_ok (board_ s) →
  LegalActions s = [] ↔ IsTerminal s = true.
Proof.
  intros Hok. split.
  - intros Hnil. rewrite LegalActions_rows in Hnil by done.
    destruct (IsTerminal s) eqn:Ht; [done|exfalso].
    apply not_true_iff_false in Ht. apply Ht.
    apply IsTerminal_rows; [done|].
    destruct (current_player_ s =? 0); [left|right]; intros k Hk;
      apply (with_beans_nil _ _ Hnil).
    + by apply elem_of_row_pits_0.
    + by apply elem_of_row_pits_1.
  - intros Ht. unfold LegalActions. by rewrite Ht.
Qed.

(** X4 — the sowing in closed form.  Sowing the [n] beans of pit [p]
    gives every pit of the ring [n / 14] beans, and one more to the
    [n mod 14] positions that follow [p]; the sown pit itself ends with
    [n / 14] beans, so it is empty afterwards exactly when it held fewer
    than 14. *)
Theorem DoApplyAction_laps s p j :
  board_ok (board_ s) → 0 ≤ p < kTotalPits → 0 ≤ j < kTotalPits →
  0 ≤ pit (board_ s) p →
  pit (board_ (DoApplyAction p s)) j
  = (if decide (j = p) then 0 else pit (board_ s) j)
    + pit (board_ s) p / kTotalPits
    + (if decide ((j - p - 1) `mod` kTotalPits
                  < pit (board_ s) p `mod` kTotalPits)
       then 1 else 0)
  ∧ pit (board_ (DoApplyAction p s)) p = pit (board_ s) p / kTotalPits
  ∧ (pit (board_ (DoApplyAction p s)) p = 0 ↔ pit (board_ s) p < kTotalPits).
Proof.
  intros Hok Hp Hj Hn.
  assert (Hown : pit (board_ (DoApplyAction p s)) p
                 = pit (board_ s) p / kTotalPits).
  { rewrite pit_DoApplyAction, visits_laps by done.
    rewrite decide_True by done. change kTotalPits with 14 in *.
    case_decide; Z.to_euclidean_division_equations; lia. }
  split; [|split; [done|]].
  - rewrite pit_DoApplyAction, visits_laps by done. lia.
  - rewrite Hown. change kTotalPits with 14.
    Z.to_euclidean_division_equations; lia.
Qed.

(** X5 — a sowing takes beans from the chosen pit only: every other pit
    of the ring holds afterwards at least what it held before. *)
Theorem DoApplyAction_other_pits s p j :
  board_ok (board_ s) → 0 ≤ p < kTotalPits → 0 ≤ j < kTotalPits →
  j ≠ p →
  pit (board_ s) j ≤ pit (board_ (DoApplyAction p s)) j.
Proof.
  intros Hok Hp Hj Hne. rewrite pit_DoApplyAction by done.
  rewrite decide_False by done.
  pose proof (visits_nonneg p (pit (board_ s) p) j). lia.
Qed.

(** X6 — a legal move on a board with the bean invariant: the sown pit
    loses beans, neither store does, and the board is no longer the
    same. *)
Theorem legal_move_effect s move :
  bean_invariant (board_ s) → move ∈ LegalActions s →
  pit (board_ (DoApplyAction move s)) move < pit (board_ s) move
  ∧ pit (board_ s) 0 ≤ pit (board_ (DoApplyAction move s)) 0
  ∧ pit (board_ s) 7 ≤ pit (board_ (DoApplyAction move s)) 7
  ∧ board_ (DoApplyAction move s) ≠ board_ s.
Proof.
  intros (Hok & Hpos & Htot) Hmove.
  destruct (LegalActions_elem s move Hok Hmove) as [Hbeans Hrow].
  assert (Hm : 0 ≤ move < kTotalPits ∧ move ≠ 0 ∧ move ≠ 7).
  { change kTotalPits with 14. destruct (current_player_ s =? 0); lia. }
  destruct Hm as (Hm & Hm0 & Hm7).
  assert (Hless : pit (board_ (DoApplyAction move s)) move
                  < pit (board_ s) move).
  { rewrite pit_DoApplyAction, visits_laps by (done || lia).
    rewrite decide_True by done. change kTotalPits with 14 in *.
    case_decide; Z.to_euclidean_division_equations; lia. }
  split; [done|]. split; [|split].
  - rewrite pit_DoApplyAction by done. rewrite decide_False by done.
    pose proof (visits_nonneg move (pit (board_ s) move) 0). lia.
  - rewrite pit_DoApplyAction by done. rewrite decide_False by done.
    pose proof (visits_nonneg move (pit (board_ s) move) 7). lia.
  - intros Heq. rewrite Heq in Hless. lia.
Qed.

(** X7 — the player to move is always player 0 or player 1 on the
    states of a game. *)
Theorem reachable_player s :
  reachable s → current_player_ s = 0 ∨ current_player_ s = 1.
Proof.
  induction 1 as [|s move Hs IH Hmove]; [by left|].
  simpl. destruct (negb _); lia.
Qed.

(** X8 — the two scores share the 48 beans.  On a board with the bean
    invariant [score0 + score1 = 48], so [Returns] names player 0 the
    winner exactly when pits 1..7 hold 25 beans or more, player 1
    exactly when they hold 23 or fewer, and is a draw exactly at 24. *)
Theorem Returns_threshold s :
  bean_invariant (board_ s) →
  score0 (board_ s) + score1 (board_ s) = 48
  ∧ (Returns s = [1; -1] ↔ 25 ≤ score0 (board_ s))
  ∧ (Returns s = [-1; 1] ↔ score0 (board_ s) ≤ 23)
  ∧ (Returns s = [0; 0] ↔ score0 (board_ s) = 24).
Proof.
  intros (Hok & Hpos & Htot).
  assert (Hsum : score0 (board_ s) + score1 (board_ s) = 48).
  { destruct (board_ok_cells _ Hok)
      as (x0&x1&x2&x3&x4&x5&x6&x7&x8&x9&x10&x11&x12&x13&Hb).
    rewrite Hb in *. unfold total_beans in Htot. simpl in Htot.
    unfold score0, score1, pit. simpl. lia. }
  split; [done|]. rewrite Returns_scores by done.
  repeat case_decide; repeat split; intros; (done || lia).
Qed.

(** ** The length of a game *)

Lemma potential_le (b : list Z) :
  bean_invariant b → 0 ≤ potential b ≤ 13872.
Proof.
  intros Hinv. destruct (potential_bounds b Hinv) as (? & ? & ?).
  unfold potential. lia.
Qed.

Lemma legal_move_row_pit s move :
  board_ok (board_ s) → move ∈ LegalActions s →
  (1 ≤ move ≤ 6 ∨ 8 ≤ move ≤ 13) ∧ 0 < pit (board_ s) move.
Proof.
  intros Hok Hmove.
  destruct (LegalActions_elem s move Hok Hmove) as [Hbeans Hrow].
  split; [|done]. destruct (current_player_ s =? 0); lia.
Qed.

Lemma reachable_potential s :
  reachable s →
  0 ≤ num_moves_ s ∧ num_moves_ s + 168 ≤ potential (board_ s).
Proof.
  induction 1 as [|s move Hs [IH0 IH] Hmove].
  - split; [done|]. by vm_compute.
  - pose proof (reachable_bean_invariant s Hs) as Hinv.
    destruct (legal_move_row_pit s move (proj1 Hinv) Hmove) as [Hrow Hbeans].
    pose proof (potential_step s move Hinv Hrow Hbeans).
    simpl num_moves_. lia.
Qed.

(** X9 — every legal move makes progress.  On a board with the bean
    invariant a legal move strictly raises the potential of the board
    (289 for a stored bean, the row place for a bean in a row), and the
    potential never exceeds 13872. *)
Theorem potential_increases s move :
  bean_invariant (board_ s) → move ∈ LegalActions s →
  potential (board_ s) < potential (board_ (DoApplyAction move s))
  ∧ potential (board_ (DoApplyAction move s)) ≤ 13872.
Proof.
  intros Hinv Hmove.
  destruct (legal_move_row_pit s move (proj1 Hinv) Hmove) as [Hrow Hbeans].
  split; [by apply potential_step|].
  apply potential_le, bean_invariant_DoApplyAction; [done|].
  change kTotalPits with 14. lia.
Qed.

(** X10 — a game is finite.  On every state reached from the initial
    state through legal actions the move counter lies between 0 and
    13704: no play has more moves than that. *)
Theorem game_length_bounded s :
  reachable s → 0 ≤ num_moves_ s ≤ 13704.
Proof.
  intros Hs. destruct (reachable_potential s Hs) as [H0 Hpot].
  pose proof (potential_le _ (reachable_bean_invariant s Hs)). lia.
Qed.

(** X11 — [InitBoard] forgets what the board held: whatever the 14
    cells contain, it leaves 4 beans in each of the twelve row pits and
    none in the stores, a board with the bean invariant. *)
Theorem InitBoard_resets (b : list Z) :
  board_ok b →
  InitBoard b = [0; 4; 4; 4; 4; 4; 4; 0; 4; 4; 4; 4; 4; 4]
  ∧ bean_invariant (InitBoard b).
Proof.
  intros Hok. unfold board_ok, size in Hok.
  assert (Hlen : length b = 14%nat) by (change kTotalPits with 14 in Hok; lia).
  assert (Hinit : InitBoard b = board_ NewInitialState).
  { unfold InitBoard. rewrite Hlen. reflexivity. }
  rewrite Hinit. split; [reflexivity | apply bean_invariant_initial].
Qed.


(** ** The board as text *)

Example ToString_initial :
  ToString NewInitialState
  = "-4-4-4-4-4-4-" +:+ newline +:+ "0-----------0" +:+ newline
    +:+ "-4-4-4-4-4-4-".
Proof. vm_compute. reflexivity. Qed.

Section board_text.
Implicit Types (s : MancalaState) (t r : string) (x : Z).

Lemma string_app_assoc (s1 s2 s3 : string) :
  (s1 +:+ s2) +:+ s3 = s1 +:+ (s2 +:+ s3).
Proof.
  induction s1 as [|a s1 IH]; [done|].
  change (String a ((s1 +:+ s2) +:+ s3) = String a (s1 +:+ s2 +:+ s3)).
  by rewrite IH.
Qed.

Lemma unbroken_pretty_N_go (x : N) (t : string) :
  unbroken t → unbroken (pretty_N_go x t).
Proof.
  revert t. induction (N.lt_wf_0 x) as [x _ IH]; intros t Ht.
  assert (x = 0 ∨ 0 < x)%N as [->|Hx] by lia.
  - by rewrite pretty_N_go_0.
  - rewrite pretty_N_go_step by done. apply IH.
    { by apply N.div_lt. }
    simpl. split; [|split; [|done]];
      unfold pretty_N_char; by repeat case_match.
Qed.

Lemma unbroken_StrCat (x : Z) : 0 ≤ x → unbroken (StrCat x).
Proof.
  intros Hx. unfold StrCat, pretty, pretty_Z.
  destruct x as [|q|q]; [by vm_compute| |lia].
  unfold pretty, pretty_positive, pretty, pretty_N.
  rewrite decide_False by done. by apply unbroken_pretty_N_go.
Qed.

Lemma unbroken_split (t1 t2 r1 r2 : string) (c1 c2 : ascii) :
  unbroken t1 → unbroken t2 →
  (c1 = "-" ∨ c1 = "010")%char → (c2 = "-" ∨ c2 = "010")%char →
  t1 +:+ String c1 r1 = t2 +:+ String c2 r2 →
  t1 = t2 ∧ c1 = c2 ∧ r1 = r2.
Proof.
  revert t2. induction t1 as [|a t1 IH]; intros [|a' t2] Ht1 Ht2 Hc1 Hc2 Heq.
  - change (String c1 r1 = String c2 r2) in Heq.
    by injection Heq as -> ->.
  - change (String c1 r1 = String a' (t2 +:+ String c2 r2)) in Heq.
    injection Heq as -> _. destruct Ht2 as (? & ? & _), Hc1; congruence.
  - change (String a (t1 +:+ String c1 r1) = String c2 r2) in Heq.
    injection Heq as -> _. destruct Ht1 as (? & ? & _), Hc2; congruence.
  - change (String a (t1 +:+ String c1 r1)
            = String a' (t2 +:+ String c2 r2)) in Heq.
    injection Heq as -> Heq.
    destruct Ht1 as (_ & _ & Ht1), Ht2 as (_ & _ & Ht2).
    by destruct (IH t2 Ht1 Ht2 Hc1 Hc2 Heq) as (-> & -> & ->).
Qed.

Lemma row_text_inj (xs ys : list Z) (r r' : string) :
  Forall (λ x, 0 ≤ x) xs → Forall (λ x, 0 ≤ x) ys →
  length xs = length ys →
  row_text xs r = row_text ys r' → xs = ys ∧ r = r'.
Proof.
  intros Hxs. revert ys.
  induction Hxs as [|x xs Hx Hxs IH]; intros [|y ys] Hys Hlen Heq;
    simplify_eq/=; [done|].
  apply Forall_cons in Hys as [Hy Hys].
  apply unbroken_split in Heq as (Hxy & _ & Heq);
    [|by apply unbroken_StrCat..|by left|by left].
  apply (inj pretty) in Hxy as ->.
  by destruct (IH ys Hys Hlen Heq) as [-> ->].
Qed.

Lemma ToString_cells s x0 x1 x2 x3 x4 x5 x6 x7 x8 x9 x10 x11 x12 x13 :
  board_ s = [x0; x1; x2; x3; x4; x5; x6; x7; x8; x9; x10; x11; x12; x13] →
  ToString s
  = String "-"
      (row_text [x13; x12; x11; x10; x9; x8]
         (String "010"
            (StrCat x0 +:+ String "-"
               ("----------" +:+ StrCat x7 +:+
                  String "010" (String "-"
                    (row_text [x1; x2; x3; x4; x5; x6] "")))))).
Proof.
  intros Hb. unfold ToString. rewrite Hb.
  change (seqZ 0 kNumPits) with [0; 1; 2; 3; 4; 5].
  change (seqZ 0 (kNumPits * 2 - 1)) with [0; 1; 2; 3; 4; 5; 6; 7; 8; 9; 10].
  unfold StrAppend, newline, row_text, pit. simpl.
  rewrite !string_app_assoc. reflexivity.
Qed.

Lemma string_cons_inj (a : ascii) (r r' : string) :
  String a r = String a r' → r = r'.
Proof. by intros [= ->]. Qed.
End board_text.
(** X12 — the observation shows the board.  [ObservationString] is
    defined for players 0 and 1 and for no other player index; it is the
    text of [ToString], whoever asks; and on boards of non-negative pits
    two states with the same observation have the same 14 pit counts. *)
Theorem ObservationString_board player player' s s' :
  board_ok (board_ s) → board_ok (board_ s') →
  Forall (λ x, 0 ≤ x) (board_ s) → Forall (λ x, 0 ≤ x) (board_ s') →
  (ObservationString player s
   = if decide (0 ≤ player ≤ 1) then Some (ToString s) else None)
  ∧ (0 ≤ player ≤ 1 → 0 ≤ player' ≤ 1 →
     ObservationString player s = ObservationString player' s' →
     board_ s = board_ s').
Proof.
  intros Hok Hok' Hpos Hpos'.
  assert (Hobs : ∀ q u, ObservationString q u
                 = if decide (0 ≤ q ≤ 1) then Some (ToString u) else None).
  { intros q u. unfold ObservationString, check_player, num_players_.
    case_decide; destruct (Z.leb_spec 0 q), (Z.ltb_spec q 2); simpl;
      (done || lia). }
  split; [apply Hobs|].
  intros Hp Hp'. rewrite !Hobs, !decide_True by done.
  intros Heq. apply (inj Some) in Heq.
  destruct (board_ok_cells _ Hok)
    as (x0&x1&x2&x3&x4&x5&x6&x7&x8&x9&x10&x11&x12&x13&Hb).
  destruct (board_ok_cells _ Hok')
    as (y0&y1&y2&y3&y4&y5&y6&y7&y8&y9&y10&y11&y12&y13&Hb').
  rewrite (ToString_cells s _ _ _ _ _ _ _ _ _ _ _ _ _ _ Hb) in Heq.
  rewrite (ToString_cells s' _ _ _ _ _ _ _ _ _ _ _ _ _ _ Hb') in Heq.
  rewrite Hb, Hb' in *.
  repeat (apply Forall_cons in Hpos as [? Hpos]).
  repeat (apply Forall_cons in Hpos' as [? Hpos']).
  apply string_cons_inj in Heq.
  apply row_text_inj in Heq as [Hrow1 Heq];
    [|by repeat (apply Forall_cons; split; [done|])..|done].
  apply string_cons_inj in Heq.
  apply unbroken_split in Heq as (Hs0 & _ & Heq);
    [|by apply unbroken_StrCat..|by left|by left].
  apply (inj pretty) in Hs0.
  apply (inj (String.app "----------")) in Heq.
  apply unbroken_split in Heq as (Hs7 & _ & Heq);
    [|by apply unbroken_StrCat..|by right|by right].
  apply (inj pretty) in Hs7.
  apply string_cons_inj in Heq.
  apply row_text_inj in Heq as [Hrow0 _];
    [|by repeat (apply Forall_cons; split; [done|])..|done].
  by simplify_eq.
Qed.


(** ** The board as a tensor *)

Section tensor.
Variables (N : Z) (b : list Z).

Let mark (view : list Z) (cell : Z) : list Z :=
  tensor_set N view (pit b cell) cell 1.

Lemma length_marks (cells : list Z) (view : list Z) :
  length (foldl mark view cells) = length view.
Proof.
  revert view. induction cells as [|c cells IH]; intros view; simpl; [done|].
  rewrite IH. unfold mark, tensor_set. apply length_insert.
Qed.

Lemma lookup_marks_hit (cells : list Z) (view : list Z) (k : nat) :
  (k < length view)%nat →
  view !! k = Some 1
  ∨ (∃ c, c ∈ cells ∧ Z.to_nat (tensor_index N (pit b c) c) = k) →
  foldl mark view cells !! k = Some 1.
Proof.
  revert view. induction cells as [|c cells IH]; intros view Hk Hor; simpl.
  - destruct Hor as [|(c & []%elem_of_nil & _)]; done.
  - apply IH.
    { unfold mark, tensor_set. by rewrite length_insert. }
    unfold mark at 1, tensor_set.
    destruct (decide (Z.to_nat (tensor_index N (pit b c) c) = k)) as [<-|Hne].
    { left. by apply list_lookup_insert_eq. }
    rewrite list_lookup_insert_ne by done.
    destruct Hor as [|(c' & [->|Hin]%elem_of_cons & Hc')]; [by left|done|].
    right. by exists c'.
Qed.

Lemma lookup_marks_miss (cells : list Z) (view : list Z) (k : nat) :
  (∀ c, c ∈ cells → Z.to_nat (tensor_index N (pit b c) c) ≠ k) →
  foldl mark view cells !! k = view !! k.
Proof.
  revert view. induction cells as [|c cells IH]; intros view Hmiss; simpl.
  - done.
  - rewrite IH by (intros c' Hc'; apply Hmiss; by right).
    unfold mark, tensor_set. apply list_lookup_insert_ne, Hmiss. by left.
Qed.

Lemma tensor_index_inj a c a' c' :
  0 ≤ c < N → 0 ≤ c' < N →
  tensor_index N a c = tensor_index N a' c' → a = a' ∧ c = c'.
Proof.
  unfold tensor_index. intros Hc Hc' Heq.
  assert (a = a') as ->; [|lia].
  destruct (Z.lt_trichotomy a a') as [Hlt|[->|Hlt]]; [exfalso|done|exfalso].
  - assert (0 ≤ (a' - a - 1) * N) by (apply Z.mul_nonneg_nonneg; lia). lia.
  - assert (0 ≤ (a - a' - 1) * N) by (apply Z.mul_nonneg_nonneg; lia). lia.
Qed.
End tensor.

Section tensor_of_board.
Variables (kCellStates kNumCells : Z) (player : Z).
Hypothesis Hplayer : 0 ≤ player ≤ 1.

Lemma ObservationTensor_lookup s values :
  Z.of_nat (length values) = kCellStates * kNumCells →
  (∀ c, 0 ≤ c < kNumCells → 0 ≤ pit (board_ s) c < kCellStates) →
  ∃ t, ObservationTensor kCellStates kNumCells player s values = Some t
       ∧ length t = length values
       ∧ ∀ a c, 0 ≤ a < kCellStates → 0 ≤ c < kNumCells →
           t !! Z.to_nat (tensor_index kNumCells a c)
           = Some (if decide (pit (board_ s) c = a) then 1 else 0).
Proof.
  intros Hlen Hpits. eexists. split; [|split].
  - unfold ObservationTensor, check_player, num_players_, TensorView.
    destruct (Z.leb_spec 0 player); [|lia].
    destruct (Z.ltb_spec player 2); [|lia].
    destruct (Z.eqb_spec (kCellStates * kNumCells) (Z.of_nat (length values)));
      [|lia].
    reflexivity.
  - by rewrite length_marks, length_replicate.
  - intros a c Ha Hc.
    assert (Hidx : 0 ≤ tensor_index kNumCells a c < kCellStates * kNumCells).
    { unfold tensor_index.
      assert (0 ≤ a * kNumCells) by (apply Z.mul_nonneg_nonneg; lia).
      assert (0 ≤ (kCellStates - 1 - a) * kNumCells)
        by (apply Z.mul_nonneg_nonneg; lia).
      lia. }
    case_decide as Heq.
    + apply lookup_marks_hit; [rewrite length_replicate; lia|].
      right. exists c. split; [apply elem_of_seqZ; lia|by rewrite Heq].
    + rewrite lookup_marks_miss.
      { apply lookup_replicate_2. lia. }
      intros c' Hc'%elem_of_seqZ Hsame.
      apply Z2Nat.inj in Hsame; [| |lia].
      * apply tensor_index_inj in Hsame as [? ?]; [congruence|lia..].
      * destruct (Hpits c' ltac:(lia)). unfold tensor_index.
        assert (0 ≤ pit (board_ s) c' * kNumCells)
          by (apply Z.mul_nonneg_nonneg; lia).
        lia.
Qed.
End tensor_of_board.

(** X14 — the observation tensor is one-hot.  For player 0 or 1, a
    [values] of the size of the grid and bean counts below [kCellStates],
    [ObservationTensor] succeeds, keeps the size, and leaves in the grid
    cell (row [a], column [c]) a 1 when pit [c] holds [a] beans and a 0
    otherwise, whatever [values] held before. *)
Theorem ObservationTensor_one_hot kCellStates kNumCells player s values :
  0 ≤ player ≤ 1 →
  Z.of_nat (length values) = kCellStates * kNumCells →
  (∀ c, 0 ≤ c < kNumCells → 0 ≤ pit (board_ s) c < kCellStates) →
  ∃ t, ObservationTensor kCellStates kNumCells player s values = Some t
       ∧ length t = length values
       ∧ ∀ a c, 0 ≤ a < kCellStates → 0 ≤ c < kNumCells →
           t !! Z.to_nat (tensor_index kNumCells a c)
           = Some (if decide (pit (board_ s) c = a) then 1 else 0).
Proof. intros Hp Hlen Hpits. by apply ObservationTensor_lookup. Qed.

(** X15 — the observation tensor tells boards apart: under the same
    conditions, two states with the same tensor hold the same number of
    beans in each of the pits [0 .. kNumCells - 1]. *)
Theorem ObservationTensor_inj kCellStates kNumCells player player' s s'
    values values' :
  0 ≤ player ≤ 1 → 0 ≤ player' ≤ 1 →
  Z.of_nat (length values) = kCellStates * kNumCells →
  Z.of_nat (length values') = kCellStates * kNumCells →
  (∀ c, 0 ≤ c < kNumCells → 0 ≤ pit (board_ s) c < kCellStates) →
  (∀ c, 0 ≤ c < kNumCells → 0 ≤ pit (board_ s') c < kCellStates) →
  ObservationTensor kCellStates kNumCells player s values
  = ObservationTensor kCellStates kNumCells player' s' values' →
  ∀ c, 0 ≤ c < kNumCells → pit (board_ s) c = pit (board_ s') c.
Proof.
  intros Hp Hp' Hlen Hlen' Hpits Hpits' Heq c Hc.
  destruct (ObservationTensor_lookup _ _ _ Hp s values Hlen Hpits)
    as (t & Ht & _ & Hlook).
  destruct (ObservationTensor_lookup _ _ _ Hp' s' values' Hlen' Hpits')
    as (t' & Ht' & _ & Hlook').
  rewrite Ht, Ht' in Heq. apply (inj Some) in Heq. subst t'.
  specialize (Hlook (pit (board_ s) c) c (Hpits c Hc) Hc).
  specialize (Hlook' (pit (board_ s) c) c (Hpits c Hc) Hc).
  rewrite Hlook in Hlook'. rewrite decide_True in Hlook' by done.
  case_decide; [done|discriminate].
Qed.

(** ** The further theorems at concrete states *)

Lemma LegalActions_elem_iff_witness :
  3 ∈ LegalActions NewInitialState ↔
    IsTerminal NewInitialState = false
    ∧ 0 < pit (board_ NewInitialState) 3
    ∧ (if current_player_ NewInitialState =? 0
       then 1 ≤ 3 ≤ 6 else 8 ≤ 3 ≤ 13).
Proof. apply (LegalActions_elem_iff NewInitialState 3). reflexivity. Defined.

Lemma LegalActions_NoDup_witness :
  NoDup (LegalActions NewInitialState)
  ∧ (length (LegalActions NewInitialState) ≤ 6)%nat
  ∧ (0 ∉ LegalActions NewInitialState) ∧ (7 ∉ LegalActions NewInitialState).
Proof. apply (LegalActions_NoDup NewInitialState). reflexivity. Defined.

Lemma LegalActions_nil_iff_witness :
  LegalActions NewInitialState = [] ↔ IsTerminal NewInitialState = true.
Proof. apply (LegalActions_nil_iff NewInitialState). reflexivity. Defined.

Lemma DoApplyAction_laps_witness :
  pit (board_ (DoApplyAction 3 NewInitialState)) 7
  = (if decide (7 = 3) then 0 else pit (board_ NewInitialState) 7)
    + pit (board_ NewInitialState) 3 / kTotalPits
    + (if decide ((7 - 3 - 1) `mod` kTotalPits
                  < pit (board_ NewInitialState) 3 `mod` kTotalPits)
       then 1 else 0)
  ∧ pit (board_ (DoApplyAction 3 NewInitialState)) 3
    = pit (board_ NewInitialState) 3 / kTotalPits
  ∧ (pit (board_ (DoApplyAction 3 NewInitialState)) 3 = 0
     ↔ pit (board_ NewInitialState) 3 < kTotalPits).
Proof.
  apply (DoApplyAction_laps NewInitialState 3 7);
    [reflexivity | unfold kTotalPits, kNumPits; lia..
     | vm_compute; discriminate].
Defined.

Lemma DoApplyAction_other_pits_witness :
  pit (board_ NewInitialState) 7
  ≤ pit (board_ (DoApplyAction 3 NewInitialState)) 7.
Proof.
  apply (DoApplyAction_other_pits NewInitialState 3 7);
    [reflexivity | unfold kTotalPits, kNumPits; lia.. | lia].
Defined.

Lemma legal_move_effect_witness :
  pit (board_ (DoApplyAction 3 NewInitialState)) 3
  < pit (board_ NewInitialState) 3
  ∧ pit (board_ NewInitialState) 0
    ≤ pit (board_ (DoApplyAction 3 NewInitialState)) 0
  ∧ pit (board_ NewInitialState) 7
    ≤ pit (board_ (DoApplyAction 3 NewInitialState)) 7
  ∧ board_ (DoApplyAction 3 NewInitialState) ≠ board_ NewInitialState.
Proof.
  apply (legal_move_effect NewInitialState 3);
    [apply bean_invariant_initial|].
  apply list_elem_of_In. vm_compute. auto.
Defined.

Lemma reachable_player_witness :
  current_player_ (DoApplyAction 1 NewInitialState) = 0
  ∨ current_player_ (DoApplyAction 1 NewInitialState) = 1.
Proof.
  apply (reachable_player (DoApplyAction 1 NewInitialState)).
  apply reachable_step; [apply reachable_init|].
  apply list_elem_of_In. vm_compute. auto.
Defined.

Lemma Returns_threshold_witness :
  score0 (board_ NewInitialState) + score1 (board_ NewInitialState) = 48
  ∧ (Returns NewInitialState = [1; -1] ↔ 25 ≤ score0 (board_ NewInitialState))
  ∧ (Returns NewInitialState = [-1; 1] ↔ score0 (board_ NewInitialState) ≤ 23)
  ∧ (Returns NewInitialState = [0; 0] ↔ score0 (board_ NewInitialState) = 24).
Proof.
  apply (Returns_threshold NewInitialState). apply bean_invariant_initial.
Defined.

Lemma potential_increases_witness :
  potential (board_ NewInitialState)
  < potential (board_ (DoApplyAction 3 NewInitialState))
  ∧ potential (board_ (DoApplyAction 3 NewInitialState)) ≤ 13872.
Proof.
  apply (potential_increases NewInitialState 3);
    [apply bean_invariant_initial|].
  apply list_elem_of_In. vm_compute. auto.
Defined.

Lemma game_length_bounded_witness :
  0 ≤ num_moves_ (DoApplyAction 1 NewInitialState) ≤ 13704.
Proof.
  apply (game_length_bounded (DoApplyAction 1 NewInitialState)).
  apply reachable_step; [apply reachable_init|].
  apply list_elem_of_In. vm_compute. auto.
Defined.

Lemma InitBoard_resets_witness :
  InitBoard [9; 0; 1; 2; 3; 4; 5; 6; 7; 8; 9; 10; 11; 12]
  = [0; 4; 4; 4; 4; 4; 4; 0; 4; 4; 4; 4; 4; 4]
  ∧ bean_invariant (InitBoard [9; 0; 1; 2; 3; 4; 5; 6; 7; 8; 9; 10; 11; 12]).
Proof.
  apply (InitBoard_resets [9; 0; 1; 2; 3; 4; 5; 6; 7; 8; 9; 10; 11; 12]).
  reflexivity.
Defined.

Lemma ObservationString_board_witness :
  (ObservationString 0 NewInitialState
   = if decide (0 ≤ 0 ≤ 1) then Some (ToString NewInitialState) else None)
  ∧ (0 ≤ 0 ≤ 1 → 0 ≤ 1 ≤ 1 →
     ObservationString 0 NewInitialState = ObservationString 1 NewInitialState →
     board_ NewInitialState = board_ NewInitialState).
Proof.
  apply (ObservationString_board 0 1 NewInitialState NewInitialState);
    try reflexivity; apply bean_invariant_initial.
Defined.


Lemma initial_pits_below_5 c :
  0 ≤ c < 14 → 0 ≤ pit (board_ NewInitialState) c < 5.
Proof.
  intros Hc.
  assert (c = 0 ∨ c = 1 ∨ c = 2 ∨ c = 3 ∨ c = 4 ∨ c = 5 ∨ c = 6 ∨ c = 7
          ∨ c = 8 ∨ c = 9 ∨ c = 10 ∨ c = 11 ∨ c = 12 ∨ c = 13)
    as Hcase by lia.
  repeat (destruct Hcase as [->|Hcase]); [..|subst c]; by vm_compute.
Qed.

Lemma ObservationTensor_one_hot_witness :
  ∃ t, ObservationTensor 5 14 0 NewInitialState (replicate 70 9) = Some t
       ∧ length t = length (replicate 70 9)
       ∧ ∀ a c, 0 ≤ a < 5 → 0 ≤ c < 14 →
           t !! Z.to_nat (tensor_index 14 a c)
           = Some (if decide (pit (board_ NewInitialState) c = a)
                   then 1 else 0).
Proof.
  apply (ObservationTensor_one_hot 5 14 0 NewInitialState (replicate 70 9));
    [lia | reflexivity | apply initial_pits_below_5].
Defined.

Lemma ObservationTensor_inj_witness :
  pit (board_ NewInitialState) 3
  = pit (board_ (mkState (board_ NewInitialState) 1 5 [] 5)) 3.
Proof.
  apply (ObservationTensor_inj 5 14 0 1
           NewInitialState (mkState (board_ NewInitialState) 1 5 [] 5)
           (replicate 70 9) (replicate 70 0));
    [lia | lia | reflexivity | reflexivity
     | apply initial_pits_below_5 | apply initial_pits_below_5
     | reflexivity | lia].
Defined.

(** X16 — no pit ever overflows.  On every state reached from the
    initial state through legal actions each of the 14 pits holds
    between 0 and 48 beans. *)
Theorem reachable_pits_bounded s :
  reachable s → Forall (λ x, 0 ≤ x ≤ 48) (board_ s).
Proof.
  intros (Hok & Hpos & Htot)%reachable_bean_invariant.
  apply Forall_forall. intros x Hx. split.
  - by apply (proj1 (Forall_forall _ _) Hpos).
  - rewrite <- Htot. by apply pit_le_total_beans.
Qed.

Lemma reachable_pits_bounded_witness :
  Forall (λ x, 0 ≤ x ≤ 48) (board_ (DoApplyAction 1 NewInitialState)).
Proof.
  apply (reachable_pits_bounded (DoApplyAction 1 NewInitialState)).
  apply reachable_step; [apply reachable_init|].
  apply list_elem_of_In. vm_compute. auto.
Defined.
